(** * Abstract factory over a line-oriented file storage

    A shallow embedding of [JavaScript/1-file-storage.js]: the abstract
    classes [DataAccessLayer], [Database] and [Cursor] with their guards,
    the file-backed variants [FsDataAccess], [FileStorage] and
    [FileLineCursor], and the cursor's filtering [next].

    JavaScript values are embedded as follows.
    - An exception is a [Throw] completion; a normal return is [Normal].
    - Numbers are IEEE binary64 floats and [===] on them is the IEEE
      comparison ([NaN] differs from itself, the two zeros are equal).
    - [JSON.parse] and the property reads on decoded arrays and primitives
      belong to the runtime, not to the program: they are the operations of
      the class [Runtime].
    - The counter [current] is a natural number (a script cannot pull the
      2^53 lines after which a JavaScript number stops counting). *)

From Stdlib Require Import Floats.
From stdpp Require Import gmap strings list fin_maps.

(** ** Completions *)

Inductive error : Type :=
| Error (message : string)   (* [new Error(message)] *)
| SyntaxError                (* thrown by [JSON.parse] *)
| TypeError.                 (* thrown by a property read on [null] *)

Inductive completion (A : Type) : Type :=
| Normal (a : A)
| Throw (e : error).
Arguments Normal {A} a.
Arguments Throw {A} e.

#[global] Instance completion_ret : MRet completion := @Normal.
#[global] Instance completion_bind : MBind completion :=
  λ A B k m, match m with Normal a => k a | Throw e => Throw e end.

#[global] Instance error_eq_dec : EqDecision error.
Proof. solve_decision. Defined.

(** ** Classes and the objects the guards compare *)

Inductive class : Type :=
| DataAccessLayer | FsDataAccess | Database | Cursor | FileLineCursor | FileStorage.

(** The two objects a class declaration creates: the class itself (its
    constructor function) and the object in its [prototype] property. *)
Inductive object_ref : Type :=
| ClassObject (c : class)
| PrototypeObject (c : class).

#[global] Instance class_eq_dec : EqDecision class.
Proof. solve_decision. Defined.
#[global] Instance object_ref_eq_dec : EqDecision object_ref.
Proof. solve_decision. Defined.

(** [Object.getPrototypeOf(this)] inside a constructor running for
    [new new_target(...)]: the object under construction was allocated with
    [new_target.prototype] as its prototype, also when the constructor runs
    through [super(...)]. *)
Definition getPrototypeOf_this (new_target : class) : object_ref :=
  PrototypeObject new_target.

Definition abstract_message : string := "abstract class should not be instanciated".

(** The factories of the program: instances carry no state, so an instance
    is identified by its class. *)
Inductive factory : Type :=
| DataAccessLayer_instance
| FsDataAccess_instance.

Definition DataAccessLayer_constructor (new_target : class) : completion factory :=
  let proto := getPrototypeOf_this new_target in
  if bool_decide (proto = ClassObject DataAccessLayer)
  then Throw (Error abstract_message)
  else Normal DataAccessLayer_instance.

Definition DataAccessLayer_createDatabase {A : Type} : completion A :=
  Throw (Error abstract_message).

Definition DataAccessLayer_createCursor {A : Type} : completion A :=
  Throw (Error abstract_message).

(** [Database]'s constructor: the guard, then [this.dal = dal]. The result
    is the field it sets. *)
Definition Database_constructor (new_target : class) (dal : factory) : completion factory :=
  let proto := getPrototypeOf_this new_target in
  if bool_decide (proto = ClassObject Database)
  then Throw (Error abstract_message)
  else Normal dal.

Definition Database_select {A : Type} : completion A :=
  Throw (Error "select method is not implemented").

(** [Cursor]'s constructor: the guard, then [this.dal = dal] and
    [this.current = 0]. The result is the pair of fields it sets. *)
Definition Cursor_constructor (new_target : class) (dal : factory) : completion (factory * nat) :=
  let proto := getPrototypeOf_this new_target in
  if bool_decide (proto = ClassObject Cursor)
  then Throw (Error abstract_message)
  else Normal (dal, 0).

Definition Cursor_asyncIterator {A : Type} : completion A :=
  Throw (Error "iterator is not implemented").

(** ** Decoded data, values and strict equality *)

#[warnings="-register-all"]
Inductive json : Type :=
| JNull
| JBool (b : bool)
| JNumber (x : float)
| JString (s : string)
| JArray (items : list json)
| JObject (members : gmap string json).

(** Objects that exist before a line is decoded: the built-in objects of
    the realm and whatever objects the caller made. *)
Inductive ref : Type :=
| Builtin (name : string)
| Host (id : nat).

#[global] Instance ref_eq_dec : EqDecision ref.
Proof. solve_decision. Defined.

(** The values the two sides of [data[field] === query[field]] can take.
    [VParsed j] is an array or object allocated by the [JSON.parse] call
    that produced [data]: it is a new object, identical to nothing that
    existed before. *)
Inductive value : Type :=
| VUndefined
| VNull
| VBool (b : bool)
| VNumber (x : float)
| VString (s : string)
| VObject (r : ref)
| VParsed (j : json).

Definition strict_eq (a b : value) : bool :=
  match a, b with
  | VUndefined, VUndefined => true
  | VNull, VNull => true
  | VBool x, VBool y => bool_decide (x = y)
  | VNumber x, VNumber y => PrimFloat.eqb x y
  | VString x, VString y => bool_decide (x = y)
  | VObject x, VObject y => bool_decide (x = y)
  | _, _ => false
  end.

(** The value a member of a decoded object reads as. *)
Definition value_of_json (j : json) : value :=
  match j with
  | JNull => VNull
  | JBool b => VBool b
  | JNumber x => VNumber x
  | JString s => VString s
  | JArray _ | JObject _ => VParsed j
  end.

(** The properties every decoded object inherits from [Object.prototype]
    (the script adds none); any other name reads as [undefined]. *)
Definition Object_prototype_methods : list string :=
  [ "__defineGetter__"; "__defineSetter__"; "__lookupGetter__"; "__lookupSetter__";
    "hasOwnProperty"; "isPrototypeOf"; "propertyIsEnumerable";
    "toLocaleString"; "toString"; "valueOf" ].

Definition Object_prototype (field : string) : value :=
  if bool_decide (field = "constructor") then VObject (Builtin "Object")
  else if bool_decide (field = "__proto__") then VObject (Builtin "Object.prototype")
  else if bool_decide (field ∈ Object_prototype_methods)
       then VObject (Builtin ("Object.prototype." +:+ field))
  else VUndefined.

(** What the program takes from its runtime. [JSON_parse] is [None] where
    [JSON.parse] throws its [SyntaxError]. [exotic_get data field] is
    [data[field]] for a decoded array, string, number or boolean (own
    indices and [length], then the built-in prototypes): such a read never
    throws. [readFileLines] is the text of a file as [readline] splits it. *)
Class Runtime : Type := {
  JSON_parse : string → option json;
  exotic_get : json → string → value;
  readFileLines : string → list string;
}.

(** ** The cursor over the lines of a file *)

(** The query as [for (const field in query)] sees it: the enumerable
    fields, each with the value [query[field]] reads. *)
Abbreviation Query := (gmap string value).

(** The line iterator a cursor holds ([readline]'s async iterator over the
    stream [input]): [pending] are the lines it has still to deliver, in
    order; once they are delivered it reports [done] for good. *)
Record LineIterator : Type := {
  input : nat;
  pending : list string;
}.

Record FileLineCursor_instance : Type := {
  dal : factory;
  current : nat;
  query : Query;
  lines : LineIterator;
}.

(** [{ value: data, done: false }] and [{ done: true }]. *)
Inductive IteratorResult : Type :=
| IterValue (data : json)
| IterDone.

Section Cursor.
Context `{Runtime}.

(** [data[field]]. *)
Definition Get (data : json) (field : string) : completion value :=
  match data with
  | JNull => Throw TypeError
  | JObject members =>
      Normal (match members !! field with
              | Some j => value_of_json j
              | None => Object_prototype field
              end)
  | _ => Normal (exotic_get data field)
  end.

(** One turn of the [for ... in] loop:
    [condition = condition && data[field] === query[field]]. *)
Definition condition_step (data : json) (condition : completion bool)
    (entry : string * value) : completion bool :=
  c ← condition;
  if c : bool
  then v ← Get data entry.1; Normal (strict_eq v entry.2)
  else Normal false.

(** [let condition = true; for (const field in query) ...]. *)
Definition query_loop (data : json) (q : Query) : completion bool :=
  foldl (condition_step data) (Normal true) (map_to_list q).

(** The [do ... while (true)] of [next], on the cursor's counter and the
    lines its iterator has still to deliver. *)
Fixpoint next_loop (q : Query) (current : nat) (pending : list string)
    : completion IteratorResult * nat * list string :=
  match pending with
  | [] => (Normal IterDone, current, [])
  | value :: pending =>
      let current := S current in
      match JSON_parse value with
      | None => (Throw SyntaxError, current, pending)
      | Some data =>
          match query_loop data q with
          | Throw e => (Throw e, current, pending)
          | Normal true => (Normal (IterValue data), current, pending)
          | Normal false => next_loop q current pending
          end
      end
  end.

(** [cursor[Symbol.asyncIterator]().next()], with the cursor it leaves. *)
Definition next (cursor : FileLineCursor_instance)
    : completion IteratorResult * FileLineCursor_instance :=
  let '(result, current', pending') :=
    next_loop (query cursor) (current cursor) (pending (lines cursor)) in
  (result,
   {| dal := dal cursor; current := current'; query := query cursor;
      lines := {| input := input (lines cursor); pending := pending' |} |}).

(** How a [for await] loop over a cursor ends. *)
Inductive ending : Type :=
| Completed
| Failed (e : error).

(** [for await (const record of cursor) ...]: the records the body
    receives, how the loop ends, and the cursor it leaves. [None] when
    [fuel] calls of [next] do not reach the end. *)
Fixpoint for_await (fuel : nat) (cursor : FileLineCursor_instance)
    : option (list json * ending * FileLineCursor_instance) :=
  match fuel with
  | 0 => None
  | S fuel =>
      match next cursor with
      | (Throw e, cursor) => Some ([], Failed e, cursor)
      | (Normal IterDone, cursor) => Some ([], Completed, cursor)
      | (Normal (IterValue record), cursor) =>
          '(records, e, cursor) ← for_await fuel cursor;
          Some (record :: records, e, cursor)
      end
  end.

(** [n] successive calls of [next] by a caller that goes on whatever
    they return: what each returned, and the cursor left. *)
Fixpoint advances (n : nat) (cursor : FileLineCursor_instance)
    : list (completion IteratorResult) * FileLineCursor_instance :=
  match n with
  | 0 => ([], cursor)
  | S n =>
      let '(result, cursor) := next cursor in
      let '(results, cursor) := advances n cursor in
      (result :: results, cursor)
  end.

(** The records among the results of successive calls of [next]. *)
Definition yielded (results : list (completion IteratorResult)) : list json :=
  omap (λ r, match r with Normal (IterValue data) => Some data | _ => None end) results.
End Cursor.

(** ** Handles and the streams they open *)

(** The read streams of the process: stream [i] is entry [i], the lines
    that stream has not emitted yet. A stream emits each line once, to the
    [readline] interfaces attached to it at that moment. What an entry
    says is exact for a stream nothing has been read from and for one
    that has been read to its end; how far a stream has got in between is
    the runtime's affair (see [phase] below). *)
Abbreviation Streams := (list (list string)).

Record FileStorage_instance : Type := {
  storage_dal : factory;
  fileName : string;
  fileStream : nat;
}.

Section Storage.
Context `{Runtime}.

(** [fs.createReadStream(fileName)]: a new stream, nothing emitted. *)
Definition createReadStream (fileName : string) (streams : Streams) : nat * Streams :=
  (length streams, streams ++ [readFileLines fileName]).

(** [readline.createInterface({ input, crlfDelay })[Symbol.asyncIterator]()]
    on a stream that has not begun to emit: the iterator will deliver all
    its lines, then the end. An interface attached later is told apart by
    [select_at] below: one attached after the stream's end receives
    neither a line nor the end. *)
Definition createInterface (input : nat) (streams : Streams) : LineIterator :=
  {| input := input; pending := default [] (streams !! input) |}.

(** What the streams have left once iterator [it] stands where it does:
    its input has emitted every line [it] has delivered. This is the least
    the stream has emitted; it is exact once [it] has reached the end. *)
Definition emitted (it : LineIterator) (streams : Streams) : Streams :=
  match streams !! input it with
  | Some unread =>
      if decide (length (pending it) < length unread)
      then <[input it := pending it]> streams
      else streams
  | None => streams
  end.

Definition FileStorage_constructor (new_target : class) (dal : factory)
    (fileName : string) (streams : Streams)
    : completion FileStorage_instance * Streams :=
  match Database_constructor new_target dal with
  | Throw e => (Throw e, streams)
  | Normal dal =>
      let '(fileStream, streams) := createReadStream fileName streams in
      (Normal {| storage_dal := dal; fileName := fileName; fileStream := fileStream |},
       streams)
  end.

Definition FileLineCursor_constructor (new_target : class) (dal : factory)
    (fileStorage : FileStorage_instance) (q : Query) (streams : Streams)
    : completion FileLineCursor_instance :=
  '(dal, current) ← Cursor_constructor new_target dal;
  Normal {| dal := dal; current := current; query := q;
            lines := createInterface (fileStream fileStorage) streams |}.

Definition FsDataAccess_createDatabase (this : factory) (fileName : string)
    (streams : Streams) : completion FileStorage_instance * Streams :=
  FileStorage_constructor FileStorage this fileName streams.

Definition FsDataAccess_createCursor (this : factory)
    (fileStorage : FileStorage_instance) (q : Query) (streams : Streams)
    : completion FileLineCursor_instance :=
  FileLineCursor_constructor FileLineCursor this fileStorage q streams.

(** [dal.createCursor(...)], dispatched on the factory's class. *)
Definition createCursor (dal : factory) (fileStorage : FileStorage_instance)
    (q : Query) (streams : Streams) : completion FileLineCursor_instance :=
  match dal with
  | DataAccessLayer_instance => DataAccessLayer_createCursor
  | FsDataAccess_instance => FsDataAccess_createCursor dal fileStorage q streams
  end.

Definition FileStorage_select (this : FileStorage_instance) (q : Query)
    (streams : Streams) : completion FileLineCursor_instance :=
  let dal := storage_dal this in
  createCursor dal this q streams.

(** One call of [next] on a cursor, with its effect on the streams. *)
Definition advance (cursor : FileLineCursor_instance) (streams : Streams)
    : completion IteratorResult * FileLineCursor_instance * Streams :=
  let '(result, cursor) := next cursor in
  (result, cursor, emitted (lines cursor) streams).

(** [for await (const record of cursor) ...], with its effect on the
    streams. *)
Fixpoint for_await_in (fuel : nat) (cursor : FileLineCursor_instance)
    (streams : Streams)
    : option (list json * ending * FileLineCursor_instance * Streams) :=
  match fuel with
  | 0 => None
  | S fuel =>
      match advance cursor streams with
      | (Throw e, cursor, streams) => Some ([], Failed e, cursor, streams)
      | (Normal IterDone, cursor, streams) => Some ([], Completed, cursor, streams)
      | (Normal (IterValue record), cursor, streams) =>
          '(records, e, cursor, streams) ← for_await_in fuel cursor streams;
          Some (record :: records, e, cursor, streams)
      end
  end.
End Storage.

(** The fuel that lets [for await] reach the end of a cursor: each call of
    [next] but the last pulls a line. *)
Definition enough (cursor : FileLineCursor_instance) : nat :=
  S (length (pending (lines cursor))).

(** A [for await] over the cursor, from where it stands to its end. *)
Definition drive `{Runtime} (cursor : FileLineCursor_instance) :=
  for_await (enough cursor) cursor.

(** The same, with its effect on the streams. *)
Definition drive_in `{Runtime} (cursor : FileLineCursor_instance) (streams : Streams) :=
  for_await_in (enough cursor) cursor streams.

(** ** The scenario of the specification *)

Module Scenario.
Definition quote : string := String (Ascii.ascii_of_nat 34) EmptyString.

(** The line [{"city":"<city>","pop":<pop>}]. *)
Definition city_line (city pop : string) : string :=
  "{" +:+ quote +:+ "city" +:+ quote +:+ ":" +:+ quote +:+ city +:+ quote +:+ ","
      +:+ quote +:+ "pop" +:+ quote +:+ ":" +:+ pop +:+ "}".

Definition city_record (city : string) (pop : float) : json :=
  JObject {[ "city" := JString city; "pop" := JNumber pop ]}.

Definition roma3 : string := city_line "Roma" "3".
Definition milano5 : string := city_line "Milano" "5".
Definition roma1 : string := city_line "Roma" "1".

(** [JSON.parse] on the texts the scenarios decode: the three lines, [{}]
    and [null] decode, [not-json] does not. No other text is decoded
    below. *)
Definition parse (s : string) : option json :=
  if bool_decide (s = roma3) then Some (city_record "Roma" 3)
  else if bool_decide (s = milano5) then Some (city_record "Milano" 5)
  else if bool_decide (s = roma1) then Some (city_record "Roma" 1)
  else if bool_decide (s = "{}") then Some (JObject ∅)
  else if bool_decide (s = "null") then Some JNull
  else None.

Definition storage_dat : list string := [roma3; milano5; roma1].

(** No line of the scenario decodes to an array or a primitive, so the
    exotic reads are never reached. *)
Definition runtime : Runtime := {|
  JSON_parse := parse;
  exotic_get := λ _ _, VUndefined;
  readFileLines := λ _, storage_dat;
|}.
#[local] Existing Instance runtime.

Definition roma : Query := {[ "city" := VString "Roma" ]}.

(** A cursor as its constructor leaves it, attached to a first stream
    that has [pending] to emit. *)
Definition cursor_over (q : Query) (pending : list string) : FileLineCursor_instance :=
  {| dal := FsDataAccess_instance; current := 0; query := q;
     lines := {| input := 0; pending := pending |} |}.
End Scenario.

(** ** Closed forms used by the proofs *)

Section ClosedForms.
Context `{Runtime}.

(** Whether [next] yields [data] under query [q]: the loop ends with
    [condition] true. *)
Definition matches (q : Query) (data : json) : bool :=
  match query_loop data q with
  | Normal true => true
  | _ => false
  end.

(** A query entry holds of [data]: the field reads, and the value read is
    strictly equal to the query's. *)
Definition holds (data : json) (entry : string * value) : Prop :=
  ∃ v, Get data entry.1 = Normal v ∧ strict_eq v entry.2 = true.

(** [data] can be checked against [q] without a throw: only a decoded
    [null] throws when a field of it is read, and only a query with a
    field reads one. *)
Definition admits (q : Query) (data : json) : Prop :=
  data = JNull → q = ∅.

(** The records of the lines up to the first one that does not decode. *)
Fixpoint decoded_prefix (pending : list string) : list json :=
  match pending with
  | [] => []
  | value :: pending =>
      match JSON_parse value with
      | Some data => data :: decoded_prefix pending
      | None => []
      end
  end.

(** A whole [for await] over the lines [pending], by recursion on them. *)
Fixpoint scan (q : Query) (current : nat) (pending : list string)
    : list json * ending * nat * list string :=
  match pending with
  | [] => ([], Completed, current, [])
  | value :: pending =>
      match JSON_parse value with
      | None => ([], Failed SyntaxError, S current, pending)
      | Some data =>
          match query_loop data q with
          | Throw e => ([], Failed e, S current, pending)
          | Normal true =>
              let '(records, e, current, pending) := scan q (S current) pending in
              (data :: records, e, current, pending)
          | Normal false => scan q (S current) pending
          end
      end
  end.

(** The cursor [cursor] with its counter and pending lines replaced. *)
Definition moved (cursor : FileLineCursor_instance) (current : nat)
    (pending : list string) : FileLineCursor_instance :=
  {| dal := dal cursor; current := current; query := query cursor;
     lines := {| input := input (lines cursor); pending := pending |} |}.
End ClosedForms.

(** ** The callers: the factory's dispatch and the script's own run *)

Section Callers.
Context `{Runtime}.

(** [new FsDataAccess()]: the class declares no constructor and extends
    nothing, so nothing runs and nothing throws. *)
Definition FsDataAccess_constructor : completion factory :=
  Normal FsDataAccess_instance.

(** [dal.createDatabase(...)], dispatched on the factory's class. *)
Definition createDatabase (dal : factory) (fileName : string) (streams : Streams)
    : completion FileStorage_instance * Streams :=
  match dal with
  | DataAccessLayer_instance => (DataAccessLayer_createDatabase, streams)
  | FsDataAccess_instance => FsDataAccess_createDatabase dal fileName streams
  end.

(** The script's run, [(async () => { ... })()]: the records it hands to
    [console.dir], in order, how the async function ends ([Failed e] is
    its promise rejected with [e]), and the streams it leaves. *)
Definition usage (streams : Streams) : option (list json * ending * Streams) :=
  match FsDataAccess_constructor with
  | Throw e => Some ([], Failed e, streams)
  | Normal dal =>
      match createDatabase dal "./storage.dat" streams with
      | (Throw e, streams) => Some ([], Failed e, streams)
      | (Normal db, streams) =>
          match FileStorage_select db {[ "city" := VString "Roma" ]} streams with
          | Throw e => Some ([], Failed e, streams)
          | Normal cursor =>
              '(records, e, _, streams) ← drive_in cursor streams;
              Some (records, e, streams)
          end
      end
  end.
End Callers.

(** ** Kinds of values, for the statements about matching *)

(** The values a query is meant to hold, [undefined] apart. *)
Definition scalar (v : value) : bool :=
  match v with
  | VNull | VBool _ | VNumber _ | VString _ => true
  | _ => false
  end.

(** The members of a record that are arrays or objects. *)
Definition nested (j : json) : bool :=
  match j with
  | JArray _ | JObject _ => true
  | _ => false
  end.

(** The decoded object has the own field [field], a string equal to [s]. *)
Definition has_string (field s : string) (members : gmap string json) : bool :=
  match members !! field with
  | Some (JString s') => bool_decide (s' = s)
  | _ => false
  end.

(** ** Matching, stated without the cursor's loop *)

Section Matching.
Context `{Runtime}.

(** [data[field] === v]: the field reads, and reads a value strictly equal
    to [v]. *)
Definition reads_equal (data : json) (field : string) (v : value) : Prop :=
  match Get data field with
  | Normal v' => strict_eq v' v = true
  | Throw _ => False
  end.

#[global] Instance reads_equal_dec data field v : Decision (reads_equal data field v).
Proof. unfold reads_equal. destruct (Get data field); apply _. Defined.

(** The record the query asks for: at every field of the query, [data]
    reads a value strictly equal to the query's. *)
Definition satisfies (q : Query) (data : json) : Prop :=
  map_Forall (reads_equal data) q.

#[global] Instance satisfies_dec q data : Decision (satisfies q data).
Proof. unfold satisfies. apply _. Defined.
End Matching.

(** ** The life of a read stream, and the cursors attached along it *)

(** How far a read stream has got. A stream emits nothing before an
    interface is attached to it, and nothing while the script runs on
    without awaiting; once the script awaits, every stream that has an
    interface runs, at the runtime's pace. *)
Inductive phase : Type :=
| Quiet      (* opened, no interface attached: nothing emitted *)
| Primed     (* an interface is attached, the script has not awaited since: nothing emitted *)
| Running    (* it has begun to emit; how far it has got is not determined here *)
| Ended.     (* it has emitted its last line and its end *)


    (* after the stream's end: no line and no end will come; a call of [next] never settles *)


Section SharedStream.
Context `{Runtime}.

(** The script awaits: the streams that have an interface run. *)
Definition awaited (ps : list phase) : list phase :=
  (λ p, match p with Primed => Running | _ => p end) <$> ps.





End SharedStream.

(** In a new process: a handle on the file of the scenario, a cursor
    driven to its end, then a second cursor from the same handle, driven
    in its turn. What becomes of the two loops. *)
Section SharedScenario.
#[local] Existing Instance Scenario.runtime.

End SharedScenario.

(** * Properties *)

Section QueryFacts.
Context `{Runtime}.

Lemma foldl_condition_throw data e entries :
  foldl (condition_step data) (Throw e) entries = Throw e.
Proof. induction entries as [|entry entries IH]; [done|]. exact IH. Qed.

Lemma foldl_condition_false data entries :
  foldl (condition_step data) (Normal false) entries = Normal false.
Proof. induction entries as [|entry entries IH]; [done|]. exact IH. Qed.

Lemma condition_step_true data entry :
  condition_step data (Normal true) entry
  = match Get data entry.1 with
    | Normal v => Normal (strict_eq v entry.2)
    | Throw e => Throw e
    end.
Proof. reflexivity. Qed.

Lemma foldl_condition_true data entries :
  foldl (condition_step data) (Normal true) entries = Normal true
  ↔ Forall (holds data) entries.
Proof.
  induction entries as [|entry entries IH]; [by split|].
  cbn [foldl]. rewrite condition_step_true, Forall_cons. unfold holds at 1.
  destruct (Get data entry.1) as [v|e] eqn:Hget.
  - destruct (strict_eq v entry.2) eqn:Heq.
    + rewrite IH. split; [intros Hall; split; eauto|tauto].
    + rewrite foldl_condition_false. split; [done|].
      intros [(v' & [= <-] & Heq') _]. congruence.
  - rewrite foldl_condition_throw. split; [done|].
    by intros [(v' & ? & _) _].
Qed.

(** The loop ends with [condition] true exactly when every field of the
    query reads from [data] a value strictly equal to the query's. *)
Lemma query_loop_true data (q : Query) :
  query_loop data q = Normal true
  ↔ ∀ field v, q !! field = Some v →
      ∃ v', Get data field = Normal v' ∧ strict_eq v' v = true.
Proof.
  unfold query_loop. rewrite foldl_condition_true, Forall_forall. split.
  - intros Hall field v Hq. apply (Hall (field, v)). by apply elem_of_map_to_list.
  - intros Hall [field v] Hin. apply Hall. by apply elem_of_map_to_list.
Qed.

Lemma Get_readable data field :
  data ≠ JNull → ∃ v, Get data field = Normal v.
Proof. destruct data; [done|eauto..]. Qed.

Lemma foldl_condition_readable data b entries :
  data ≠ JNull → ∃ b', foldl (condition_step data) (Normal b) entries = Normal b'.
Proof.
  intros Hdata. revert b. induction entries as [|entry entries IH]; intros b; [by eexists|].
  cbn [foldl]. destruct b.
  - rewrite condition_step_true.
    destruct (Get_readable data entry.1 Hdata) as [v ->]. apply IH.
  - apply IH.
Qed.

(** Only a decoded [null] makes the loop throw. *)
Lemma query_loop_readable data (q : Query) :
  data ≠ JNull → ∃ b, query_loop data q = Normal b.
Proof. apply foldl_condition_readable. Qed.

Lemma query_loop_empty data : query_loop data ∅ = Normal true.
Proof. unfold query_loop. by rewrite map_to_list_empty. Qed.

Lemma query_loop_admitted data (q : Query) :
  admits q data → ∃ b, query_loop data q = Normal b.
Proof.
  intros Hadmits.
  assert (data = JNull ∨ data ≠ JNull) as [Hnull|Hdata] by (destruct data; auto).
  - rewrite (Hadmits Hnull). exists true. apply query_loop_empty.
  - by apply query_loop_readable.
Qed.

Lemma foldl_condition_null entry entries :
  foldl (condition_step JNull) (Normal true) (entry :: entries) = Throw TypeError.
Proof. cbn [foldl]. rewrite condition_step_true. apply foldl_condition_throw. Qed.

(** X3. The order in which [for ... in] visits the fields does not change
    the outcome of the loop. *)
Lemma query_loop_order data (q : Query) entries :
  entries ≡ₚ map_to_list q →
  foldl (condition_step data) (Normal true) entries = query_loop data q.
Proof.
  intros Hperm. unfold query_loop.
  assert (data = JNull ∨ data ≠ JNull) as [->|Hdata] by (destruct data; auto).
  - destruct entries as [|e es], (map_to_list q) as [|e' es'] eqn:Hq.
    + done.
    + by apply Permutation_nil_cons in Hperm.
    + symmetry in Hperm. by apply Permutation_nil_cons in Hperm.
    + by rewrite !foldl_condition_null.
  - destruct (foldl_condition_readable data true entries Hdata) as [b Hb].
    destruct (foldl_condition_readable data true (map_to_list q) Hdata) as [b' Hb'].
    rewrite Hb, Hb'. f_equal.
    destruct b, b'; try done.
    + apply foldl_condition_true in Hb. rewrite Hperm in Hb.
      apply foldl_condition_true in Hb. congruence.
    + apply foldl_condition_true in Hb'. rewrite <- Hperm in Hb'.
      apply foldl_condition_true in Hb'. congruence.
Qed.

Lemma matches_true q data :
  matches q data = true ↔ query_loop data q = Normal true.
Proof.
  unfold matches. destruct (query_loop data q) as [[]|]; split; done.
Qed.

(** Fields the query does not mention do not change the outcome. *)
Lemma query_loop_extra (q : Query) (members extra : gmap string json) :
  (∀ field, is_Some (q !! field) → extra !! field = None) →
  query_loop (JObject (members ∪ extra)) q = query_loop (JObject members) q.
Proof.
  intros Hextra. unfold query_loop.
  assert (Hall : Forall (λ entry : string * value, is_Some (q !! entry.1)) (map_to_list q)).
  { apply Forall_forall. intros [field v] Hin. apply elem_of_map_to_list in Hin. by eexists. }
  generalize (Normal true : completion bool).
  induction Hall as [|entry entries Hentry _ IH]; intros acc; [done|].
  cbn [foldl]. rewrite IH. f_equal.
  destruct acc as [[]|]; try done. cbn.
  rewrite lookup_union. rewrite (Hextra _ Hentry).
  by destruct (members !! entry.1).
Qed.
End QueryFacts.

(** Closes the arithmetic and equational side conditions about the lines
    a call has pulled. *)
Ltac pulled_side :=
  repeat split; intros; cbn in *; try done; try lia; try congruence; eauto.

Section CursorFacts.
Context `{Runtime}.

Lemma next_moved cursor :
  next cursor
  = let '(result, current', pending') :=
      next_loop (query cursor) (current cursor) (pending (lines cursor)) in
    (result, moved cursor current' pending').
Proof. reflexivity. Qed.

(** One call of [next] pulls the next [k] lines and counts each of them;
    it pulls at least one unless it reports [done]. *)
Lemma next_loop_pulled q current pending result current' pending' :
  next_loop q current pending = (result, current', pending') →
  ∃ k, current' = current + k ∧ pending' = drop k pending ∧ k ≤ length pending
       ∧ (result ≠ Normal IterDone → 0 < k)
       ∧ (result = Normal IterDone → pending' = []).
Proof.
  revert current. induction pending as [|value pending IH]; intros current Hnext.
  - injection Hnext as <- <- <-. exists 0. pulled_side.
  - cbn [next_loop] in Hnext.
    assert (Hone : ∀ r, r ≠ Normal IterDone → (r, S current, pending) = (result, current', pending') →
      ∃ k, current' = current + k ∧ pending' = drop k (value :: pending)
           ∧ k ≤ length (value :: pending)
           ∧ (result ≠ Normal IterDone → 0 < k)
           ∧ (result = Normal IterDone → pending' = [])).
    { intros r Hr [= <- <- <-]. exists 1. pulled_side. }
    destruct (JSON_parse value) as [data|]; [|eapply Hone; [|exact Hnext]; done].
    destruct (query_loop data q) as [[]|e];
      [eapply Hone; [|exact Hnext]; done| |eapply Hone; [|exact Hnext]; done].
    destruct (IH _ Hnext) as (k & -> & -> & Hk & Hpos & Hdone).
    exists (S k). pulled_side.
Qed.

Lemma scan_next_loop q current pending :
  scan q current pending
  = match next_loop q current pending with
    | (Throw e, current', pending') => ([], Failed e, current', pending')
    | (Normal IterDone, current', pending') => ([], Completed, current', pending')
    | (Normal (IterValue data), current', pending') =>
        let '(records, e, current'', pending'') := scan q current' pending' in
        (data :: records, e, current'', pending'')
    end.
Proof.
  revert current. induction pending as [|value pending IH]; intros current; [done|].
  cbn [scan next_loop]. destruct (JSON_parse value) as [data|]; [|done].
  destruct (query_loop data q) as [[]|e]; [done| |done]. apply IH.
Qed.

Lemma scan_pulled q current pending records e current' pending' :
  scan q current pending = (records, e, current', pending') →
  ∃ k, current' = current + k ∧ pending' = drop k pending ∧ k ≤ length pending
       ∧ length records ≤ k ∧ (e = Completed → pending' = []).
Proof.
  revert current records. induction pending as [|value pending IH]; intros current records Hscan.
  - injection Hscan as <- <- <- <-. exists 0. pulled_side.
  - cbn [scan] in Hscan.
    destruct (JSON_parse value) as [data|].
    2:{ injection Hscan as <- <- <- <-. exists 1. pulled_side. }
    destruct (query_loop data q) as [[]|err].
    + destruct (scan q (S current) pending) as [[[records0 e0] current0] pending0] eqn:Hrest.
      injection Hscan as <- <- <- <-.
      destruct (IH _ _ Hrest) as (k & -> & -> & Hk & Hlen & Hdone).
      exists (S k). pulled_side.
    + destruct (IH _ _ Hscan) as (k & -> & -> & Hk & Hlen & Hdone).
      exists (S k). pulled_side.
    + injection Hscan as <- <- <- <-. exists 1. pulled_side.
Qed.

(** With fuel for one more call than there are pending lines, [for await]
    reaches its end, and [scan] says where. *)
Lemma for_await_scan fuel cursor :
  length (pending (lines cursor)) < fuel →
  for_await fuel cursor
  = let '(records, e, current', pending') :=
      scan (query cursor) (current cursor) (pending (lines cursor)) in
    Some (records, e, moved cursor current' pending').
Proof.
  revert cursor. induction fuel as [|fuel IH]; intros cursor Hfuel; [lia|].
  cbn [for_await]. rewrite next_moved, scan_next_loop.
  destruct (next_loop (query cursor) (current cursor) (pending (lines cursor)))
    as [[result current'] pending'] eqn:Hnext.
  destruct result as [[data|]|e]; [|done..].
  destruct (next_loop_pulled _ _ _ _ _ _ Hnext) as (k & -> & -> & Hk & Hpos & _).
  specialize (Hpos ltac:(done)).
  rewrite IH by (cbn; rewrite length_drop; lia). cbn.
  by destruct (scan (query cursor) (current cursor + k) (drop k (pending (lines cursor))))
    as [[[records e] current''] pending''].
Qed.

Lemma drive_scan cursor :
  drive cursor
  = let '(records, e, current', pending') :=
      scan (query cursor) (current cursor) (pending (lines cursor)) in
    Some (records, e, moved cursor current' pending').
Proof. apply for_await_scan. unfold enough. lia. Qed.

(** Every record a [for await] receives made the loop end with
    [condition] true. *)
Lemma scan_matches q current pending :
  Forall (λ data, query_loop data q = Normal true) (scan q current pending).1.1.1.
Proof.
  revert current. induction pending as [|value pending IH]; intros current; [by constructor|].
  cbn [scan]. destruct (JSON_parse value) as [data|]; [|by constructor].
  destruct (query_loop data q) as [[]|e] eqn:Hq; [|apply IH|by constructor].
  specialize (IH (S current)).
  destruct (scan q (S current) pending) as [[[records e] current'] pending'].
  by constructor.
Qed.

(** Over lines that decode and on which the loop does not throw, a
    [for await] receives the matching records and goes on. *)
Lemma scan_app q current before records after :
  Forall2 (λ value data, JSON_parse value = Some data
                         ∧ ∃ b, query_loop data q = Normal b) before records →
  scan q current (before ++ after)
  = let '(records', e, current', pending') := scan q (current + length before) after in
    (filter (λ data, matches q data) records ++ records', e, current', pending').
Proof.
  intros Hdec. revert current.
  induction Hdec as [|value data before records [Hparse [b Hq]] _ IH]; intros current.
  - cbn. rewrite Nat.add_0_r. by destruct (scan q current after) as [[[??]?]?].
  - cbn [app scan]. rewrite Hparse, Hq, IH. cbn [length].
    replace (S current + length before) with (current + S (length before)) by lia.
    destruct (scan q (current + S (length before)) after) as [[[records' e] current'] pending'].
    assert (Hm : matches q data = b) by (unfold matches; rewrite Hq; by destruct b).
    rewrite filter_cons, Hm. by destruct b.
Qed.

Lemma scan_all q current pending records :
  Forall2 (λ value data, JSON_parse value = Some data
                         ∧ ∃ b, query_loop data q = Normal b) pending records →
  scan q current pending
  = (filter (λ data, matches q data) records, Completed, current + length pending, []).
Proof.
  intros Hdec. rewrite <- (app_nil_r pending) at 1.
  rewrite (scan_app _ _ _ _ _ Hdec). cbn. by rewrite app_nil_r.
Qed.

Lemma admitted_lines q (pending : list string) (records : list json) :
  Forall2 (λ value data, JSON_parse value = Some data ∧ admits q data) pending records →
  Forall2 (λ value data, JSON_parse value = Some data
                         ∧ ∃ b, query_loop data q = Normal b) pending records.
Proof.
  intros Hdecoded. eapply Forall2_impl; [exact Hdecoded|].
  intros value data [Hparse Hdata]. split; [done|]. by apply query_loop_admitted.
Qed.

(** Over lines that all decode to records the query admits, a
    [for await] receives the matching records and completes. *)
Lemma drive_records cursor records :
  Forall2 (λ value data, JSON_parse value = Some data ∧ admits (query cursor) data)
          (pending (lines cursor)) records →
  drive cursor
  = Some (filter (λ data, matches (query cursor) data) records, Completed,
          moved cursor (current cursor + length records) []).
Proof.
  intros Hdecoded.
  rewrite drive_scan, (scan_all _ _ _ records) by by apply admitted_lines.
  by rewrite (Forall2_length _ _ _ Hdecoded).
Qed.
End CursorFacts.

Section CursorClaims.
Context `{Runtime}.

(** C1 (filter correctness). Take any source and any query, and a line
    the cursor reaches (the lines before it decode, and none to a [null]
    unless the query is empty) that decodes to the record [record]. A
    [for await] over the cursor receives [record] if and only if, for
    every field of the query, the value [record] reads at that field is
    strictly equal ([===], no coercion) to the query's value at that
    field. Fields the query does not mention play no part: adding them to
    a record does not change whether it matches. *)
Theorem filter_correctness cursor before value after record :
  pending (lines cursor) = before ++ value :: after →
  Forall (λ line, ∃ data, JSON_parse line = Some data ∧ admits (query cursor) data)
         before →
  JSON_parse value = Some record →
  ∃ records e cursor',
    drive cursor = Some (records, e, cursor')
    ∧ (record ∈ records
       ↔ ∀ field v, query cursor !! field = Some v →
           ∃ v', Get record field = Normal v' ∧ strict_eq v' v = true)
    ∧ ∀ members extra : gmap string json,
        (∀ field, is_Some (query cursor !! field) → extra !! field = None) →
        matches (query cursor) (JObject (members ∪ extra))
        = matches (query cursor) (JObject members).
Proof.
  intros Hpending Hbefore Hparse.
  apply Forall_exists_Forall2_l in Hbefore as [decoded Hdecoded].
  apply admitted_lines in Hdecoded.
  destruct (scan (query cursor) (current cursor) (pending (lines cursor)))
    as [[[records e] current'] pending'] eqn:Hscan.
  exists records, e, (moved cursor current' pending').
  split; [by rewrite drive_scan, Hscan|]. split; [split|].
  - intros Hin. apply query_loop_true.
    pose proof (scan_matches (query cursor) (current cursor) (pending (lines cursor))) as Hall.
    rewrite Hscan, Forall_forall in Hall. by apply Hall.
  - intros Hq. apply query_loop_true in Hq.
    rewrite Hpending, (scan_app _ _ _ _ _ Hdecoded) in Hscan.
    cbn [scan] in Hscan. rewrite Hparse, Hq in Hscan.
    destruct (scan (query cursor) (S (current cursor + length before)) after)
      as [[[records0 e0] current0] pending0].
    injection Hscan as <- _ _ _. apply elem_of_app. right. apply elem_of_cons. by left.
  - intros members extra Hextra. unfold matches. by rewrite query_loop_extra.
Qed.

Lemma filter_empty_query (records : list json) :
  filter (λ data, matches ∅ data) records = records.
Proof.
  induction records as [|data records IH]; [done|].
  rewrite filter_cons, IH. unfold matches. by rewrite query_loop_empty.
Qed.

(** C7 (empty-query identity). A cursor whose query is empty yields
    every record decoded from the source, as decoded and in source
    order, and then ends. *)
Theorem empty_query_identity cursor records :
  query cursor = ∅ →
  Forall2 (λ value data, JSON_parse value = Some data) (pending (lines cursor)) records →
  drive cursor
  = Some (records, Completed, moved cursor (current cursor + length records) []).
Proof.
  intros Hquery Hdecoded. rewrite drive_scan, Hquery.
  rewrite (scan_all _ _ _ records).
  - by rewrite filter_empty_query, (Forall2_length _ _ _ Hdecoded).
  - eapply Forall2_impl; [exact Hdecoded|]. intros value data Hparse.
    split; [done|]. exists true. apply query_loop_empty.
Qed.

(** For any source at all, the records an empty query yields are those
    of the lines up to the first malformed one. *)
Lemma empty_query_decoded_prefix current pending :
  (scan ∅ current pending).1.1.1 = decoded_prefix pending.
Proof.
  revert current. induction pending as [|value pending IH]; intros current; [done|].
  cbn [scan decoded_prefix]. destruct (JSON_parse value) as [data|]; [|done].
  rewrite query_loop_empty. specialize (IH (S current)).
  destruct (scan ∅ (S current) pending) as [[[records e] current'] pending'].
  cbn in *. by rewrite IH.
Qed.

Lemma satisfies_matches q data :
  satisfies q data ↔ matches q data = true.
Proof.
  rewrite matches_true, query_loop_true. unfold satisfies, map_Forall, reads_equal.
  split; intros Hall field v Hq; specialize (Hall field v Hq).
  - destruct (Get data field) as [v'|]; [by exists v'|done].
  - by destruct Hall as (v' & -> & Heq).
Qed.

Lemma filter_satisfies q (records : list json) :
  filter (λ data, matches q data) records = filter (satisfies q) records.
Proof.
  apply list_filter_iff. intros data. rewrite satisfies_matches.
  split; [apply Is_true_true_1|apply Is_true_true_2].
Qed.

(** C8 (order preservation). Over a source whose lines decode to the
    records [records], in that order (none of them a [null], unless the
    query is empty), a [for await] receives the records that satisfy the
    query (at every field of the query the record reads a value strictly
    equal to the query's) and no other, each once and in their source
    order; then the cursor ends. *)
Theorem order_preservation cursor records :
  Forall2 (λ value data, JSON_parse value = Some data ∧ admits (query cursor) data)
          (pending (lines cursor)) records →
  drive cursor
  = Some (filter (satisfies (query cursor)) records, Completed,
          moved cursor (current cursor + length records) []).
Proof.
  intros Hdecoded. rewrite <- filter_satisfies. by apply drive_records.
Qed.
End CursorClaims.

Section CounterClaims.
Context `{Runtime}.

Lemma moved_same cursor :
  moved cursor (current cursor) (pending (lines cursor)) = cursor.
Proof. by destruct cursor as [? ? ? []]. Qed.

Lemma yielded_cons result results :
  length (yielded (result :: results))
  = length (yielded [result]) + length (yielded results).
Proof. unfold yielded. cbn. by destruct result as [[]|]. Qed.

Lemma next_pulled cursor result cursor' :
  next cursor = (result, cursor') →
  ∃ k, cursor' = moved cursor (current cursor + k) (drop k (pending (lines cursor)))
       ∧ k ≤ length (pending (lines cursor))
       ∧ length (yielded [result]) ≤ k.
Proof.
  rewrite next_moved.
  destruct (next_loop (query cursor) (current cursor) (pending (lines cursor)))
    as [[result0 current'] pending'] eqn:Hnext.
  intros [= <- <-].
  destruct (next_loop_pulled _ _ _ _ _ _ Hnext) as (k & -> & -> & Hk & Hpos & _).
  exists k. split; [done|]. split; [done|].
  destruct result0 as [[data|]|e]; cbn; [|lia..].
  specialize (Hpos ltac:(done)). lia.
Qed.

Lemma advances_pulled n cursor results cursor' :
  advances n cursor = (results, cursor') →
  ∃ k, cursor' = moved cursor (current cursor + k) (drop k (pending (lines cursor)))
       ∧ k ≤ length (pending (lines cursor))
       ∧ length (yielded results) ≤ k.
Proof.
  revert cursor results cursor'. induction n as [|n IH]; intros cursor results cursor'.
  - intros [= <- <-]. exists 0. rewrite Nat.add_0_r, drop_0, moved_same. pulled_side.
  - cbn [advances]. destruct (next cursor) as [result cursor1] eqn:Hnext.
    destruct (advances n cursor1) as [results1 cursor2] eqn:Hrest.
    intros [= <- <-].
    apply next_pulled in Hnext as (k1 & -> & Hk1 & Hy1).
    apply IH in Hrest as (k2 & -> & Hk2 & Hy2). cbn in Hk2.
    rewrite length_drop in Hk2.
    exists (k1 + k2). rewrite yielded_cons.
    split; [unfold moved; cbn; rewrite drop_drop; f_equal; lia|]. lia.
Qed.

Lemma advances_S n cursor :
  advances (S n) cursor
  = let '(result, cursor1) := next cursor in
    let '(results, cursor2) := advances n cursor1 in
    (result :: results, cursor2).
Proof. reflexivity. Qed.

Lemma advances_last n cursor :
  (advances (S n) cursor).2 = (next (advances n cursor).2).2.
Proof.
  revert cursor. induction n as [|n IH]; intros cursor.
  - cbn. by destruct (next cursor).
  - rewrite (advances_S (S n)), (advances_S n cursor).
    destruct (next cursor) as [result cursor1].
    specialize (IH cursor1).
    destruct (advances (S n) cursor1) as [results2 cursor2].
    destruct (advances n cursor1) as [results3 cursor3].
    exact IH.
Qed.

(** C4 (position counting). A cursor starts with [current] at 0. After
    any number of calls of [next] on a cursor, whatever they returned,
    [current] has grown by the number of lines pulled from the source
    since, skipped ones included: the lines still pending are the
    source's without that many first lines. That number bounds the number
    of records yielded, and [current] never decreases from one call to
    the next. *)
Theorem position_counting cursor n dal fileStorage q streams :
  let after := (advances n cursor).2 in
  let pulled := length (pending (lines cursor)) - length (pending (lines after)) in
  FileLineCursor_constructor FileLineCursor dal fileStorage q streams
  = Normal {| dal := dal; current := 0; query := q;
              lines := createInterface (fileStream fileStorage) streams |}
  ∧ current after = current cursor + pulled
  ∧ pending (lines after) = drop pulled (pending (lines cursor))
  ∧ length (yielded (advances n cursor).1) ≤ pulled
  ∧ current after ≤ current (advances (S n) cursor).2.
Proof.
  cbv zeta. split; [done|]. rewrite advances_last.
  destruct (advances n cursor) as [results after] eqn:Hadv.
  apply advances_pulled in Hadv as (k & -> & Hk & Hy). cbn [fst snd].
  destruct (next (moved cursor (current cursor + k) (drop k (pending (lines cursor)))))
    as [result after'] eqn:Hnext.
  apply next_pulled in Hnext as (k' & -> & _ & _). cbn.
  rewrite length_drop.
  replace (length (pending (lines cursor)) - (length (pending (lines cursor)) - k))
    with k by lia.
  repeat split; [done|lia].
Qed.

Lemma next_exhausted cursor :
  pending (lines cursor) = [] → next cursor = (Normal IterDone, cursor).
Proof.
  intros Hpending. rewrite next_moved, Hpending. cbn.
  rewrite <- Hpending. by rewrite moved_same.
Qed.

Lemma advances_exhausted n cursor :
  pending (lines cursor) = [] →
  advances n cursor = (replicate n (Normal IterDone), cursor).
Proof.
  intros Hpending. induction n as [|n IH]; [done|].
  by rewrite advances_S, next_exhausted, IH.
Qed.

(** A call of [next] that reports the end has pulled, and counted, every
    line that was pending. *)
Lemma next_done cursor cursor' :
  next cursor = (Normal IterDone, cursor') →
  cursor' = moved cursor (current cursor + length (pending (lines cursor))) [].
Proof.
  rewrite next_moved.
  destruct (next_loop (query cursor) (current cursor) (pending (lines cursor)))
    as [[result current'] pending'] eqn:Hnext.
  intros [= -> <-].
  destruct (next_loop_pulled _ _ _ _ _ _ Hnext) as (k & -> & -> & Hk & _ & Hdone).
  specialize (Hdone eq_refl). rewrite Hdone.
  apply (f_equal length) in Hdone. rewrite length_drop in Hdone. cbn in Hdone.
  by replace k with (length (pending (lines cursor))) by lia.
Qed.

(** C5 (termination on exhaustion). Once a call of [next] has reported
    the end of the source, every later call reports it again: none
    yields a record, none throws, and the cursor no longer changes. *)
Theorem exhaustion_is_terminal cursor cursor' n :
  next cursor = (Normal IterDone, cursor') →
  advances n cursor' = (replicate n (Normal IterDone), cursor')
  ∧ pending (lines cursor') = [].
Proof.
  intros ->%next_done. split; [|done]. by apply advances_exhausted.
Qed.

(** C6 (decode errors). When a call of [next] pulls a line that does
    not decode, after skipping any number of decodable lines that do not
    match, the call throws the decoder's error to its caller: it yields
    no record and does not go on to the lines behind the malformed one,
    which is counted as pulled. *)
Theorem decode_error_is_signalled cursor skipped value rest :
  pending (lines cursor) = skipped ++ value :: rest →
  Forall (λ line, ∃ data, JSON_parse line = Some data
                          ∧ query_loop data (query cursor) = Normal false) skipped →
  JSON_parse value = None →
  next cursor
  = (Throw SyntaxError, moved cursor (current cursor + length skipped + 1) rest).
Proof.
  intros Hpending Hskipped Hparse. rewrite next_moved, Hpending. clear Hpending.
  generalize (current cursor) as current.
  induction Hskipped as [|line skipped (data & Hline & Hq) _ IH]; intros current.
  - cbn. rewrite Hparse. do 2 f_equal. lia.
  - cbn [app next_loop length]. rewrite Hline, Hq.
    specialize (IH (S current)).
    destruct (next_loop (query cursor) (S current) (skipped ++ value :: rest))
      as [[result current'] pending'].
    injection IH as -> -> ->. do 2 f_equal. lia.
Qed.

(** C9 (the counter around errors and exhaustion). [current] is
    incremented before the line is decoded, so a call of [next] that
    throws on a malformed line leaves that line counted. The end of the
    source is not counted: a call that reports it has added to [current]
    the lines it pulled on the way and nothing more, and leaves the
    cursor as it was when there were none. *)
Theorem current_incremented_before_decoding cursor value rest last last' exhausted :
  pending (lines cursor) = value :: rest →
  JSON_parse value = None →
  next last = (Normal IterDone, last') →
  pending (lines exhausted) = [] →
  next cursor = (Throw SyntaxError, moved cursor (S (current cursor)) rest)
  ∧ current last' = current last + length (pending (lines last))
  ∧ next exhausted = (Normal IterDone, exhausted).
Proof.
  intros Hpending Hparse Hlast Hexhausted. split; [|split].
  - rewrite next_moved, Hpending. cbn. by rewrite Hparse.
  - by rewrite (next_done _ _ Hlast).
  - by apply next_exhausted.
Qed.

Lemma value_of_json_defined j : value_of_json j ≠ VUndefined.
Proof. by destruct j. Qed.

Lemma strict_eq_undefined v : strict_eq v VUndefined = true ↔ v = VUndefined.
Proof. destruct v; cbn; split; done. Qed.

(** C10, as the code has it. A query that maps a field to [undefined]
    is neither rejected nor ignored: it matches a decoded object exactly
    when the field reads as [undefined] there, which is when the field is
    not among the record's own fields and is not a property every object
    inherits from [Object.prototype], and the rest of the query
    matches. *)
Theorem undefined_query_field (q : Query) field (members : gmap string json) :
  q !! field = Some VUndefined →
  query_loop (JObject members) q = Normal true
  ↔ members !! field = None
    ∧ Object_prototype field = VUndefined
    ∧ query_loop (JObject members) (delete field q) = Normal true.
Proof.
  intros Hfield. rewrite !query_loop_true. split.
  - intros Hall. destruct (Hall _ _ Hfield) as (v' & [= <-] & Heq).
    apply strict_eq_undefined in Heq.
    destruct (members !! field) as [j|] eqn:Hown.
    + by apply value_of_json_defined in Heq.
    + repeat split; [done|]. intros field' v [Hne Hq]%lookup_delete_Some. eauto.
  - intros (Hown & Hproto & Hrest) field' v Hq.
    destruct (decide (field = field')) as [<-|Hne].
    + rewrite Hfield in Hq. injection Hq as <-.
      exists VUndefined. cbn. by rewrite Hown, Hproto.
    + apply Hrest. by apply lookup_delete_Some.
Qed.

(** X1. A line that decodes to [null] is counted and then, if the query has
    a field, makes the call throw: reading a field of [null] is a
    [TypeError]. *)
Theorem null_line_throws cursor value rest field v :
  pending (lines cursor) = value :: rest →
  JSON_parse value = Some JNull →
  query cursor !! field = Some v →
  next cursor = (Throw TypeError, moved cursor (S (current cursor)) rest).
Proof.
  intros Hpending Hparse Hfield. rewrite next_moved, Hpending. cbn [next_loop].
  rewrite Hparse. unfold query_loop.
  apply elem_of_map_to_list in Hfield.
  destruct (map_to_list (query cursor)) as [|entry entries]; [by apply elem_of_nil in Hfield|].
  by rewrite foldl_condition_null.
Qed.
End CounterClaims.

Section StorageClaims.
Context `{Runtime}.

Lemma drop_same_length {A} k (l : list A) :
  length l ≤ length (drop k l) → drop k l = l.
Proof.
  rewrite length_drop. intros Hlen. destruct k as [|k]; [done|].
  destruct l as [|x l]; [done|]. cbn in Hlen. lia.
Qed.

(** A stream that has emitted up to where an iterator stood, and then up
    to where it stands after more pulls, has emitted up to the latter. *)
Lemma emitted_further it1 it2 k (streams : Streams) :
  input it2 = input it1 →
  pending it2 = drop k (pending it1) →
  emitted it2 (emitted it1 streams) = emitted it2 streams.
Proof.
  intros Hinput Hpending. unfold emitted. rewrite Hinput.
  destruct (streams !! input it1) as [unread|] eqn:Hs; [|by rewrite Hs].
  pose proof (lookup_lt_Some _ _ _ Hs) as Hlt.
  destruct (decide (length (pending it1) < length unread)) as [Hlt1|Hge1]; [|by rewrite Hs].
  rewrite list_lookup_insert_eq by done.
  assert (Hlen : length (pending it2) ≤ length (pending it1))
    by (rewrite Hpending, length_drop; lia).
  destruct (decide (length (pending it2) < length (pending it1))) as [Hlt2|Hge2].
  - rewrite list_insert_insert_eq. by rewrite decide_True by lia.
  - rewrite decide_True by lia. f_equal.
    rewrite Hpending. symmetry. apply drop_same_length. rewrite <- Hpending. lia.
Qed.

Lemma for_await_pulled fuel cursor records e cursor' :
  for_await fuel cursor = Some (records, e, cursor') →
  ∃ k, cursor' = moved cursor (current cursor + k) (drop k (pending (lines cursor))).
Proof.
  revert cursor records. induction fuel as [|fuel IH]; intros cursor records; [done|].
  cbn [for_await]. destruct (next cursor) as [result cursor1] eqn:Hnext.
  apply next_pulled in Hnext as (k1 & -> & _ & _).
  destruct result as [[data|]|err]; [|intros [= <- <- <-]; by exists k1..].
  destruct (for_await fuel _) as [[[records1 e1] cursor2]|] eqn:Hrest; [|done].
  intros [= <- <- <-]. apply IH in Hrest as [k2 ->].
  exists (k1 + k2). unfold moved. cbn. by rewrite drop_drop, Nat.add_assoc.
Qed.

(** Driving a cursor within the streams is driving the cursor, and
    leaves its input emitted up to where the cursor ends. *)
Lemma for_await_in_for_await fuel cursor (streams : Streams) :
  for_await_in fuel cursor streams
  = '(records, e, cursor') ← for_await fuel cursor;
    Some (records, e, cursor', emitted (lines cursor') streams).
Proof.
  revert cursor streams. induction fuel as [|fuel IH]; intros cursor streams; [done|].
  cbn [for_await_in for_await]. unfold advance.
  destruct (next cursor) as [result cursor1] eqn:Hnext.
  destruct result as [[data|]|err]; [|done..].
  rewrite IH. destruct (for_await fuel cursor1) as [[[records1 e1] cursor2]|] eqn:Hrest; [|done].
  cbn. apply for_await_pulled in Hrest as [k ->].
  by rewrite (emitted_further _ _ k).
Qed.

Lemma createDatabase_stream fileName (streams : Streams) :
  FsDataAccess_createDatabase FsDataAccess_instance fileName streams
  = (Normal {| storage_dal := FsDataAccess_instance; fileName := fileName;
               fileStream := length streams |},
     streams ++ [readFileLines fileName]).
Proof. reflexivity. Qed.

Lemma select_cursor db q (streams : Streams) :
  storage_dal db = FsDataAccess_instance →
  FileStorage_select db q streams
  = Normal {| dal := FsDataAccess_instance; current := 0; query := q;
              lines := createInterface (fileStream db) streams |}.
Proof. unfold FileStorage_select. by intros ->. Qed.

(** A cursor obtained by [select] reads what the handle's stream has not
    emitted yet, and driving it to its end leaves that stream drained. *)
Lemma select_reads_unread db q (streams : Streams) unread records :
  storage_dal db = FsDataAccess_instance →
  streams !! fileStream db = Some unread →
  Forall2 (λ value data, JSON_parse value = Some data ∧ data ≠ JNull) unread records →
  ∃ cursor cursor' streams',
    FileStorage_select db q streams = Normal cursor
    ∧ input (lines cursor) = fileStream db
    ∧ drive_in cursor streams
      = Some (filter (λ data, matches q data) records, Completed, cursor', streams')
    ∧ streams' !! fileStream db = Some []
    ∧ length streams' = length streams.
Proof.
  intros Hdal Hs Hdecoded. rewrite (select_cursor _ _ _ Hdal).
  unfold createInterface. rewrite Hs. cbn [default].
  set (cursor := {| dal := FsDataAccess_instance; current := 0; query := q;
                    lines := {| input := fileStream db; pending := unread |} |}).
  assert (Hdrive : drive cursor
    = Some (filter (λ data, matches q data) records, Completed,
            moved cursor (current cursor + length records) [])).
  { apply (drive_records cursor). eapply Forall2_impl; [exact Hdecoded|].
    intros value data [Hparse Hdata]. split; [done|]. by intros ->. }
  exists cursor, (moved cursor (current cursor + length records) []),
    (emitted (lines (moved cursor (current cursor + length records) [])) streams).
  split; [done|]. split; [done|]. split.
  { unfold drive_in. rewrite for_await_in_for_await.
    fold (drive cursor). by rewrite Hdrive. }
  unfold emitted; cbn; rewrite Hs. split.
  - pose proof (lookup_lt_Some _ _ _ Hs).
    case_decide as Hlen; [by apply list_lookup_insert_eq|].
    rewrite Hs. f_equal. destruct unread; [done|cbn in Hlen; lia].
  - case_decide; [apply length_insert|done].
Qed.

Lemma awaited_lookup (ps : list phase) i p :
  ps !! i = Some p →
  awaited ps !! i = Some (match p with Primed => Running | _ => p end).
Proof. intros Hp. unfold awaited. by rewrite list_lookup_fmap, Hp. Qed.



End StorageClaims.

(** C3 (a defect of the code). Each guard compares the prototype of the
    object under construction with the class itself; the prototype of an
    instance is the class's [prototype] object, never the class. So
    [new DataAccessLayer()], [new Database(dal)] and [new Cursor(dal)]
    return normally instead of throwing. The base methods [createDatabase],
    [createCursor], [select] and the base iteration do throw. *)
Theorem abstract_guards_never_fire dal :
  DataAccessLayer_constructor DataAccessLayer = Normal DataAccessLayer_instance
  ∧ Database_constructor Database dal = Normal dal
  ∧ Cursor_constructor Cursor dal = Normal (dal, 0)
  ∧ @DataAccessLayer_createDatabase FileStorage_instance = Throw (Error abstract_message)
  ∧ @DataAccessLayer_createCursor FileLineCursor_instance = Throw (Error abstract_message)
  ∧ @Database_select FileLineCursor_instance = Throw (Error "select method is not implemented")
  ∧ @Cursor_asyncIterator IteratorResult = Throw (Error "iterator is not implemented").
Proof. repeat split. Qed.

(** Whatever class is being instantiated, no guard fires. *)
Lemma guards_compare_prototype_with_class new_target c :
  bool_decide (getPrototypeOf_this new_target = ClassObject c) = false.
Proof. by apply bool_decide_eq_false. Qed.

(** * The scenarios of the specification, and the claims at concrete inputs *)

Section ScenarioChecks.
Import Scenario.
#[local] Existing Instance runtime.

Lemma scenario_lines_decode :
  Forall2 (λ value data, JSON_parse value = Some data ∧ data ≠ JNull) storage_dat
    [city_record "Roma" 3; city_record "Milano" 5; city_record "Roma" 1].
Proof. repeat constructor; done. Qed.

(** The query [{ city: 'Roma' }] over the three lines of the scenario
    yields the first and the third record, in that order, and ends. *)
Example roma_scenario :
  drive (cursor_over roma storage_dat)
  = Some ([city_record "Roma" 3; city_record "Roma" 1], Completed,
          moved (cursor_over roma storage_dat) 3 []).
Proof. vm_compute. reflexivity. Qed.

(** A malformed line ends the loop with the decoder's error; the record
    behind it is not reached. *)
Example malformed_scenario :
  drive (cursor_over roma [roma3; "not-json"; roma1])
  = Some ([city_record "Roma" 3], Failed SyntaxError,
          moved (cursor_over roma [roma3; "not-json"; roma1]) 2 [roma1]).
Proof. vm_compute. reflexivity. Qed.

(** The line [null] decodes, and reading a field of it throws. *)
Example null_scenario :
  drive (cursor_over roma ["null"; roma1])
  = Some ([], Failed TypeError, moved (cursor_over roma ["null"; roma1]) 1 [roma1])
  ∧ drive (cursor_over ∅ ["null"])
    = Some ([JNull], Completed, moved (cursor_over ∅ ["null"]) 1 []).
Proof. split; vm_compute; reflexivity. Qed.

(** Two lines pulled, one record yielded: [current] counts the former. *)
Example skipped_lines_are_counted :
  advances 1 (cursor_over roma [milano5; roma1])
  = ([Normal (IterValue (city_record "Roma" 1))],
     moved (cursor_over roma [milano5; roma1]) 2 []).
Proof. vm_compute. reflexivity. Qed.

(** A field that is absent and not inherited reads as [undefined]. *)
Example absent_field_matches_undefined :
  query_loop (JObject ∅) {[ "region" := VUndefined ]} = Normal true
  ∧ query_loop (city_record "Roma" 3) {[ "city" := VUndefined ]} = Normal false.
Proof. split; vm_compute; reflexivity. Qed.

Lemma filter_correctness_witness :
  ∃ records e cursor',
    drive (cursor_over roma storage_dat) = Some (records, e, cursor')
    ∧ (city_record "Roma" 1 ∈ records
       ↔ ∀ field v, roma !! field = Some v →
           ∃ v', Get (city_record "Roma" 1) field = Normal v' ∧ strict_eq v' v = true)
    ∧ ∀ members extra : gmap string json,
        (∀ field, is_Some (roma !! field) → extra !! field = None) →
        matches roma (JObject (members ∪ extra)) = matches roma (JObject members).
Proof.
  apply (filter_correctness (cursor_over roma storage_dat) [roma3; milano5] roma1 []).
  - reflexivity.
  - repeat constructor; eexists; (split; [reflexivity|discriminate]).
  - reflexivity.
Defined.

Lemma exhaustion_is_terminal_witness :
  next (cursor_over roma [milano5])
  = (Normal IterDone, moved (cursor_over roma [milano5]) 1 [])
  ∧ advances 3 (moved (cursor_over roma [milano5]) 1 [])
    = (replicate 3 (Normal IterDone), moved (cursor_over roma [milano5]) 1 [])
  ∧ pending (lines (moved (cursor_over roma [milano5]) 1 [])) = [].
Proof.
  split; [vm_compute; reflexivity|].
  apply (exhaustion_is_terminal (cursor_over roma [milano5])).
  vm_compute. reflexivity.
Defined.

Lemma decode_error_is_signalled_witness :
  next (cursor_over roma [milano5; "not-json"; roma1])
  = (Throw SyntaxError, moved (cursor_over roma [milano5; "not-json"; roma1]) 2 [roma1]).
Proof.
  apply (decode_error_is_signalled
           (cursor_over roma [milano5; "not-json"; roma1]) [milano5] "not-json" [roma1]).
  - reflexivity.
  - repeat constructor. exists (city_record "Milano" 5).
    split; vm_compute; reflexivity.
  - vm_compute. reflexivity.
Defined.

Lemma empty_query_identity_witness :
  drive (cursor_over ∅ ("null" :: storage_dat))
  = Some ([JNull; city_record "Roma" 3; city_record "Milano" 5; city_record "Roma" 1],
          Completed, moved (cursor_over ∅ ("null" :: storage_dat)) 4 []).
Proof.
  apply (empty_query_identity (cursor_over ∅ ("null" :: storage_dat))
           [JNull; city_record "Roma" 3; city_record "Milano" 5; city_record "Roma" 1]).
  - reflexivity.
  - repeat constructor.
Defined.

Lemma order_preservation_witness :
  filter (satisfies roma)
    [city_record "Roma" 3; city_record "Milano" 5; city_record "Roma" 1]
  = [city_record "Roma" 3; city_record "Roma" 1]
  ∧ drive (cursor_over roma storage_dat)
    = Some (filter (satisfies roma)
              [city_record "Roma" 3; city_record "Milano" 5; city_record "Roma" 1],
            Completed, moved (cursor_over roma storage_dat) (0 + 3) []).
Proof.
  split; [vm_compute; reflexivity|].
  apply (order_preservation (cursor_over roma storage_dat)
           [city_record "Roma" 3; city_record "Milano" 5; city_record "Roma" 1]).
  repeat constructor; discriminate.
Defined.

Lemma current_incremented_before_decoding_witness :
  next (cursor_over roma ["not-json"; roma1])
  = (Throw SyntaxError, moved (cursor_over roma ["not-json"; roma1]) 1 [roma1])
  ∧ current (moved (cursor_over roma [milano5]) 1 [])
    = current (cursor_over roma [milano5]) + length (pending (lines (cursor_over roma [milano5])))
  ∧ next (cursor_over roma []) = (Normal IterDone, cursor_over roma []).
Proof.
  apply (current_incremented_before_decoding
           (cursor_over roma ["not-json"; roma1]) "not-json" [roma1]
           (cursor_over roma [milano5]) (moved (cursor_over roma [milano5]) 1 [])
           (cursor_over roma [])).
  - reflexivity.
  - vm_compute. reflexivity.
  - vm_compute. reflexivity.
  - reflexivity.
Defined.

(** C10 as stated fails: the record [{}] has no field [toString], and
    a query that maps [toString] to [undefined] does not yield it,
    because the field reads as the method every object inherits. *)
Lemma inherited_field_is_not_undefined :
  JSON_parse "{}" = Some (JObject ∅)
  ∧ (∅ : gmap string json) !! "toString" = None
  ∧ drive (cursor_over {[ "toString" := VUndefined ]} ["{}"])
    = Some ([], Completed, moved (cursor_over {[ "toString" := VUndefined ]} ["{}"]) 1 []).
Proof. repeat split; vm_compute; reflexivity. Qed.

Lemma undefined_query_field_witness :
  query_loop (JObject ∅) {[ "region" := VUndefined ]} = Normal true
  ↔ (∅ : gmap string json) !! "region" = None
    ∧ Object_prototype "region" = VUndefined
    ∧ query_loop (JObject ∅) (delete "region" {[ "region" := VUndefined ]}) = Normal true.
Proof.
  apply (undefined_query_field {[ "region" := VUndefined ]} "region" ∅).
  vm_compute. reflexivity.
Defined.



Lemma null_line_throws_witness :
  next (cursor_over roma ["null"; roma1])
  = (Throw TypeError, moved (cursor_over roma ["null"; roma1]) 1 [roma1]).
Proof.
  apply (null_line_throws (cursor_over roma ["null"; roma1]) "null" [roma1]
           "city" (VString "Roma")).
  - reflexivity.
  - vm_compute. reflexivity.
  - vm_compute. reflexivity.
Defined.

Lemma query_loop_order_witness :
  foldl (condition_step (city_record "Roma" 3)) (Normal true)
    (reverse (map_to_list ({[ "city" := VString "Roma"; "pop" := VNumber 3 ]} : Query)))
  = query_loop (city_record "Roma" 3) {[ "city" := VString "Roma"; "pop" := VNumber 3 ]}.
Proof.
  apply (query_loop_order (city_record "Roma" 3)
           {[ "city" := VString "Roma"; "pop" := VNumber 3 ]}).
  apply reverse_Permutation.
Defined.
End ScenarioChecks.

(** * Further properties of the code *)

Section MatchingFacts.
Context `{Runtime}.

Lemma Object_prototype_not_scalar field v :
  scalar v = true → strict_eq (Object_prototype field) v = false.
Proof.
  intros Hv. unfold Object_prototype.
  repeat case_bool_decide; by destruct v.
Qed.

Lemma value_of_json_nested j v :
  nested j = true → strict_eq (value_of_json j) v = false.
Proof. by destruct j. Qed.

Lemma Get_object members field :
  Get (JObject members) field
  = Normal (match members !! field with
            | Some j => value_of_json j
            | None => Object_prototype field
            end).
Proof. reflexivity. Qed.

(** X4. A query that maps a field to [null], a boolean, a number or a
    string matches a decoded object only through an own field of the
    object: what every object inherits from [Object.prototype] never
    satisfies it. The object matches exactly when it has the field, with
    a value strictly equal to the query's, and the rest of the query
    matches. *)
Theorem scalar_query_needs_own_field (q : Query) field v (members : gmap string json) :
  q !! field = Some v →
  scalar v = true →
  query_loop (JObject members) q = Normal true
  ↔ (∃ j, members !! field = Some j ∧ strict_eq (value_of_json j) v = true)
    ∧ query_loop (JObject members) (delete field q) = Normal true.
Proof.
  intros Hfield Hv. rewrite !query_loop_true. split.
  - intros Hall. destruct (Hall _ _ Hfield) as (v' & Hget & Heq).
    rewrite Get_object in Hget. injection Hget as <-. split.
    + destruct (members !! field) as [j|]; [by exists j|].
      by rewrite Object_prototype_not_scalar in Heq.
    + intros field' v' [Hne Hq]%lookup_delete_Some. eauto.
  - intros [(j & Hown & Heq) Hrest] field' v' Hq.
    destruct (decide (field = field')) as [<-|Hne].
    + rewrite Hfield in Hq. injection Hq as <-.
      exists (value_of_json j). by rewrite Get_object, Hown.
    + apply Hrest. by apply lookup_delete_Some.
Qed.

(** X5. A record is never matched on a member that is an array or an
    object: whatever value the query gives for that field, the freshly
    decoded member is not identical to it, and the record does not
    match. *)
Theorem nested_values_never_match (q : Query) field v (members : gmap string json) j :
  q !! field = Some v →
  members !! field = Some j →
  nested j = true →
  query_loop (JObject members) q = Normal false.
Proof.
  intros Hfield Hown Hnested.
  destruct (query_loop_readable (JObject members) q ltac:(done)) as [[] Hb]; [|done].
  pose proof (proj1 (query_loop_true _ _) Hb) as Hall. destruct (Hall _ _ Hfield) as (v' & Hget & Heq).
  rewrite Get_object, Hown in Hget. injection Hget as <-.
  by rewrite value_of_json_nested in Heq.
Qed.

Lemma eqb_nan x y : PrimFloat.is_nan y = true → PrimFloat.eqb x y = false.
Proof.
  unfold PrimFloat.is_nan. rewrite !FloatAxioms.eqb_spec. intros Hnan.
  destruct (Prim2SF y) as [s|s| |s m e]; cbn in Hnan.
  - by destruct s.
  - by destruct s.
  - unfold SpecFloat.SFeqb, SpecFloat.SFcompare. by destruct (Prim2SF x).
  - unfold SpecFloat.SFeqb, SpecFloat.SFcompare in Hnan.
    rewrite Z.compare_refl, Pos.compare_refl in Hnan.
    by destruct s.
Qed.

(** X6. [NaN] is not strictly equal to anything, so a query that maps a
    field to [NaN] matches no decoded value at all. *)
Theorem nan_query_never_matches (q : Query) field x data :
  q !! field = Some (VNumber x) →
  PrimFloat.is_nan x = true →
  data ≠ JNull →
  query_loop data q = Normal false.
Proof.
  intros Hfield Hnan Hdata.
  destruct (query_loop_readable data q Hdata) as [[] Hb]; [|done].
  pose proof (proj1 (query_loop_true _ _) Hb) as Hall. destruct (Hall _ _ Hfield) as (v' & _ & Heq).
  destruct v'; try done. cbn in Heq. by rewrite eqb_nan in Heq.
Qed.

Lemma matches_iff q data :
  matches q data = true
  ↔ ∀ field v, q !! field = Some v →
      ∃ v', Get data field = Normal v' ∧ strict_eq v' v = true.
Proof. unfold matches. rewrite <- query_loop_true. by destruct (query_loop data q) as [[]|]. Qed.

(** X7. A query is a conjunction: a value matches the union of two
    queries with no field in common exactly when it matches both. *)
Theorem query_union (q1 q2 : Query) data :
  q1 ##ₘ q2 →
  matches (q1 ∪ q2) data = matches q1 data && matches q2 data.
Proof.
  intros Hdisjoint.
  assert (Hiff : matches (q1 ∪ q2) data = true
                 ↔ matches q1 data = true ∧ matches q2 data = true).
  { rewrite !matches_iff. split.
    - intros Hall. split; intros field v Hq; apply Hall.
      + by apply lookup_union_Some_l.
      + by apply lookup_union_Some_r.
    - intros [H1 H2] field v [Hq|Hq]%lookup_union_Some; eauto. }
  destruct (matches (q1 ∪ q2) data), (matches q1 data), (matches q2 data);
    cbn; intuition congruence.
Qed.

Lemma matches_weaken (q q' : Query) data :
  q ⊆ q' → matches q' data = true → matches q data = true.
Proof.
  rewrite !matches_iff. intros Hsub Hall field v Hq.
  apply Hall. by eapply lookup_weaken.
Qed.

Lemma filter_matches_weaken (q q' : Query) (records : list json) :
  q ⊆ q' →
  filter (λ data, matches q' data) (filter (λ data, matches q data) records)
  = filter (λ data, matches q' data) records.
Proof.
  intros Hsub. apply list_filter_filter_l. intros data Hq'%Is_true_true.
  apply Is_true_true. by eapply matches_weaken.
Qed.
End MatchingFacts.

Section ForAwaitFacts.
Context `{Runtime}.

Lemma drive_split cursor before after records :
  pending (lines cursor) = before ++ after →
  Forall2 (λ value data, JSON_parse value = Some data ∧ admits (query cursor) data)
          before records →
  drive cursor
  = let '(records', e, current', pending') :=
      scan (query cursor) (current cursor + length before) after in
    Some (filter (λ data, matches (query cursor) data) records ++ records', e,
          moved cursor current' pending').
Proof.
  intros Hpending Hdecoded. apply admitted_lines in Hdecoded.
  rewrite drive_scan, Hpending, (scan_app _ _ _ _ _ Hdecoded).
  by destruct (scan (query cursor) (current cursor + length before) after) as [[[??]?]?].
Qed.

Lemma drive_moved cursor current' pending' :
  drive (moved cursor current' pending')
  = let '(records, e, current'', pending'') := scan (query cursor) current' pending' in
    Some (records, e, moved cursor current'' pending'').
Proof. by rewrite drive_scan. Qed.

(** X8. A [for await] over a cursor stops at the first line that does
    not decode: it has received the matching records of the lines before
    it, its promise rejects with the decoder's error, no later line is
    pulled, and [current] has grown by the position of the malformed line
    among the pending ones (its line number, for a new cursor). *)
Theorem for_await_stops_at_malformed cursor before value after records :
  pending (lines cursor) = before ++ value :: after →
  Forall2 (λ value data, JSON_parse value = Some data ∧ admits (query cursor) data)
          before records →
  JSON_parse value = None →
  drive cursor
  = Some (filter (λ data, matches (query cursor) data) records, Failed SyntaxError,
          moved cursor (current cursor + length before + 1) after).
Proof.
  intros Hpending Hdecoded Hparse.
  rewrite (drive_split _ _ _ _ Hpending Hdecoded). cbn [scan]. rewrite Hparse.
  rewrite app_nil_r. do 3 f_equal. lia.
Qed.

(** X9. The error is not final for the cursor: a second [for await] over
    the cursor that stopped at a malformed line goes on behind that line,
    and receives the matching records of the lines after it. Together the
    two loops have counted every line of the source. *)
Theorem for_await_resumes_after_error cursor before value after records records' :
  pending (lines cursor) = before ++ value :: after →
  Forall2 (λ value data, JSON_parse value = Some data ∧ admits (query cursor) data)
          before records →
  JSON_parse value = None →
  Forall2 (λ value data, JSON_parse value = Some data ∧ admits (query cursor) data)
          after records' →
  ∃ stopped,
    drive cursor
    = Some (filter (λ data, matches (query cursor) data) records, Failed SyntaxError, stopped)
    ∧ drive stopped
      = Some (filter (λ data, matches (query cursor) data) records', Completed,
              moved cursor (current cursor + length (pending (lines cursor))) []).
Proof.
  intros Hpending Hdecoded Hparse Hdecoded'.
  exists (moved cursor (S (current cursor + length before)) after). split.
  - rewrite (drive_split _ _ _ _ Hpending Hdecoded). cbn [scan]. rewrite Hparse.
    by rewrite app_nil_r.
  - apply admitted_lines in Hdecoded'.
    rewrite drive_moved, (scan_all _ _ _ _ Hdecoded'), Hpending, length_app. cbn.
    do 3 f_equal. lia.
Qed.

(** X10. A cursor is single-pass: once a [for await] over it has
    completed, another [for await] over the same cursor receives no
    record and completes at once, leaving the cursor as it is. *)
Theorem cursor_is_single_pass cursor records finished :
  drive cursor = Some (records, Completed, finished) →
  drive finished = Some ([], Completed, finished).
Proof.
  rewrite drive_scan.
  destruct (scan (query cursor) (current cursor) (pending (lines cursor)))
    as [[[records0 e] current'] pending'] eqn:Hscan.
  intros [= <- -> <-].
  apply scan_pulled in Hscan as (k & _ & _ & _ & _ & Hdone).
  by rewrite (Hdone eq_refl).
Qed.

(** X11. Refining a query filters the earlier result: over the same
    lines, a cursor whose query extends another cursor's query yields
    exactly those records of the other's result that match the larger
    query, in the same order. *)
Theorem narrower_query_filters_the_result cursor narrower records :
  query cursor ⊆ query narrower →
  pending (lines narrower) = pending (lines cursor) →
  Forall2 (λ value data, JSON_parse value = Some data ∧ data ≠ JNull)
          (pending (lines cursor)) records →
  ∃ result finished finished',
    drive cursor = Some (result, Completed, finished)
    ∧ drive narrower
      = Some (filter (λ data, matches (query narrower) data) result, Completed, finished')
    ∧ filter (λ data, matches (query narrower) data) result `sublist_of` result.
Proof.
  intros Hsub Hpending Hdecoded.
  assert (Hadmitted : ∀ q, Forall2 (λ value data, JSON_parse value = Some data ∧ admits q data)
                             (pending (lines cursor)) records).
  { intros q. eapply Forall2_impl; [exact Hdecoded|].
    intros value data [Hparse Hdata]. split; [done|]. by intros ->. }
  eexists _, _, _. split; [by apply drive_records|]. split; [|apply sublist_filter].
  rewrite (filter_matches_weaken _ _ _ Hsub).
  apply drive_records. rewrite Hpending. apply Hadmitted.
Qed.
End ForAwaitFacts.

Section HandleFacts.
Context `{Runtime}.

Lemma emitted_frame it (streams : Streams) j :
  j ≠ input it → emitted it streams !! j = streams !! j.
Proof.
  intros Hne. unfold emitted. destruct (streams !! input it) as [unread|]; [|done].
  case_decide; [|done]. by apply list_lookup_insert_ne.
Qed.

(** Driving a cursor leaves every stream but its input as it was. *)
Lemma drive_in_frame cursor (streams : Streams) records e cursor' streams' j :
  drive_in cursor streams = Some (records, e, cursor', streams') →
  j ≠ input (lines cursor) →
  streams' !! j = streams !! j.
Proof.
  unfold drive_in. rewrite for_await_in_for_await.
  destruct (for_await (enough cursor) cursor) as [[[records0 e0] cursor0]|] eqn:Hdrive; [|done].
  intros [= <- <- <- <-] Hne. apply for_await_pulled in Hdrive as [k ->].
  by apply emitted_frame.
Qed.

(** X12. Every handle has a stream of its own: [createDatabase] opens a
    new stream and leaves the others alone. So, unlike two cursors of one
    handle, cursors obtained from two handles do not disturb each other,
    also when both handles are on the same file: after the first has been
    driven to its end, the second still yields every record that matches
    its query. *)
Theorem handles_have_their_own_streams file1 file2 (streams : Streams)
    db1 streams1 db2 streams2 q1 q2 records1 records2 :
  createDatabase FsDataAccess_instance file1 streams = (Normal db1, streams1) →
  createDatabase FsDataAccess_instance file2 streams1 = (Normal db2, streams2) →
  Forall2 (λ value data, JSON_parse value = Some data ∧ data ≠ JNull)
          (readFileLines file1) records1 →
  Forall2 (λ value data, JSON_parse value = Some data ∧ data ≠ JNull)
          (readFileLines file2) records2 →
  ∃ cursor1 end1 streams3 cursor2 end2 streams4,
    fileStream db1 ≠ fileStream db2
    ∧ FileStorage_select db1 q1 streams2 = Normal cursor1
    ∧ drive_in cursor1 streams2
      = Some (filter (λ data, matches q1 data) records1, Completed, end1, streams3)
    ∧ FileStorage_select db2 q2 streams3 = Normal cursor2
    ∧ drive_in cursor2 streams3
      = Some (filter (λ data, matches q2 data) records2, Completed, end2, streams4).
Proof.
  cbn [createDatabase]. rewrite !createDatabase_stream.
  intros [= <- <-] [= <- <-] Hdecoded1 Hdecoded2.
  set (db1 := {| storage_dal := FsDataAccess_instance; fileName := file1;
                 fileStream := length streams |}).
  set (db2 := {| storage_dal := FsDataAccess_instance; fileName := file2;
                 fileStream := length (streams ++ [readFileLines file1]) |}).
  set (streams2 := (streams ++ [readFileLines file1]) ++ [readFileLines file2]).
  assert (Hne : fileStream db1 ≠ fileStream db2)
    by (cbn; rewrite length_app; cbn; lia).
  assert (Hs1 : streams2 !! fileStream db1 = Some (readFileLines file1)).
  { unfold streams2. cbn. rewrite lookup_app_l by (rewrite length_app; cbn; lia).
    by rewrite lookup_app_r, Nat.sub_diag by done. }
  assert (Hs2 : streams2 !! fileStream db2 = Some (readFileLines file2)).
  { unfold streams2. cbn. by rewrite lookup_app_r, Nat.sub_diag by done. }
  destruct (select_reads_unread db1 q1 streams2 _ records1 eq_refl Hs1 Hdecoded1)
    as (cursor1 & end1 & streams3 & Hselect1 & Hinput1 & Hdrive1 & _).
  assert (Hs3 : streams3 !! fileStream db2 = Some (readFileLines file2)).
  { rewrite (drive_in_frame _ _ _ _ _ _ _ Hdrive1); [done|]. by rewrite Hinput1. }
  destruct (select_reads_unread db2 q2 streams3 _ records2 eq_refl Hs3 Hdecoded2)
    as (cursor2 & end2 & streams4 & Hselect2 & _ & Hdrive2 & _).
  by exists cursor1, end1, streams3, cursor2, end2, streams4.
Qed.

(** X13. Nothing checks the factory when a handle is made. A handle can
    be constructed on either factory, also on an instance of the base
    [DataAccessLayer]: its constructor opens the file's stream all the
    same. What the factory is shows at [select] only, which throws the
    base class's error for the base factory and otherwise returns a cursor
    at position 0 that holds the handle's factory and the query. *)
Theorem factory_is_checked_at_select dal file (streams : Streams) q :
  ∃ db,
    FileStorage_constructor FileStorage dal file streams
    = (Normal db, streams ++ [readFileLines file])
    ∧ storage_dal db = dal
    ∧ FileStorage_select db q (streams ++ [readFileLines file])
      = match dal with
        | DataAccessLayer_instance => Throw (Error abstract_message)
        | FsDataAccess_instance =>
            Normal {| dal := dal; current := 0; query := q;
                      lines := {| input := length streams;
                                  pending := readFileLines file |} |}
        end.
Proof.
  eexists. split; [reflexivity|]. split; [done|].
  destruct dal; [done|].
  unfold FileStorage_select, createCursor, FsDataAccess_createCursor,
    FileLineCursor_constructor, createInterface. cbn.
  by rewrite lookup_app_r, Nat.sub_diag by done.
Qed.

Lemma matches_city s (members : gmap string json) :
  matches {[ "city" := VString s ]} (JObject members) = has_string "city" s members.
Proof.
  unfold matches, query_loop, has_string. rewrite map_to_list_singleton. cbn.
  destruct (members !! "city") as [j|]; [|done].
  destruct j; try done. cbn. by repeat case_bool_decide.
Qed.

Lemma drained_stream (streams : Streams) unread :
  emitted {| input := length streams; pending := [] |} (streams ++ [unread])
  = streams ++ [[]].
Proof.
  unfold emitted. cbn. rewrite lookup_app_r, Nat.sub_diag by done. cbn.
  case_decide as Hlen.
  - rewrite insert_app_r_alt, Nat.sub_diag by done. done.
  - destruct unread; [done|cbn in Hlen; lia].
Qed.

(** X14. The script, run where every line of [./storage.dat] decodes to
    an object: it hands to [console.dir], in their order in the file,
    exactly the objects that have an own field [city] with the string
    [Roma] as its value; then its loop completes, and the stream it opened
    is drained. *)
Theorem usage_prints_the_roma_records (streams : Streams) (objects : list (gmap string json)) :
  Forall2 (λ value members, JSON_parse value = Some (JObject members))
          (readFileLines "./storage.dat") objects →
  usage streams
  = Some (JObject <$> filter (λ members, has_string "city" "Roma" members) objects,
          Completed, streams ++ [[]]).
Proof.
  intros Hdecoded. unfold usage, FsDataAccess_constructor. cbn [createDatabase].
  rewrite createDatabase_stream, select_cursor by done.
  unfold createInterface. cbn [fileStream].
  rewrite lookup_app_r, Nat.sub_diag by done.
  change (default [] ([readFileLines "./storage.dat"] !! 0))
    with (readFileLines "./storage.dat").
  set (cursor := {| dal := FsDataAccess_instance; current := 0;
                    query := {[ "city" := VString "Roma" ]};
                    lines := {| input := length streams;
                                pending := readFileLines "./storage.dat" |} |}).
  unfold drive_in. rewrite for_await_in_for_await. fold (drive cursor).
  rewrite (drive_records cursor (JObject <$> objects)).
  - cbn. rewrite drained_stream. do 3 f_equal.
    clear. induction objects as [|members objects IH]; [done|].
    rewrite fmap_cons, !filter_cons, matches_city, IH.
    by destruct (has_string "city" "Roma" members).
  - apply Forall2_fmap_r. eapply Forall2_impl; [exact Hdecoded|].
    by intros value members Hparse.
Qed.
End HandleFacts.

Section MoreScenarioChecks.
Import Scenario.
#[local] Existing Instance runtime.

Lemma scalar_query_needs_own_field_witness :
  query_loop (city_record "Roma" 3) roma = Normal true
  ↔ (∃ j, ({[ "city" := JString "Roma"; "pop" := JNumber 3 ]} : gmap string json) !! "city"
          = Some j
          ∧ strict_eq (value_of_json j) (VString "Roma") = true)
    ∧ query_loop (city_record "Roma" 3) (delete "city" roma) = Normal true.
Proof.
  apply (scalar_query_needs_own_field roma "city" (VString "Roma")
           {[ "city" := JString "Roma"; "pop" := JNumber 3 ]}).
  - vm_compute. reflexivity.
  - reflexivity.
Defined.

Lemma nested_values_never_match_witness :
  query_loop (JObject {[ "tags" := JArray [] ]}) {[ "tags" := VObject (Host 0) ]}
  = Normal false.
Proof.
  apply (nested_values_never_match {[ "tags" := VObject (Host 0) ]} "tags"
           (VObject (Host 0)) {[ "tags" := JArray [] ]} (JArray [])).
  - vm_compute. reflexivity.
  - vm_compute. reflexivity.
  - reflexivity.
Defined.

Lemma nan_query_never_matches_witness :
  query_loop (JObject {[ "pop" := JNumber nan ]}) {[ "pop" := VNumber nan ]} = Normal false.
Proof.
  apply (nan_query_never_matches {[ "pop" := VNumber nan ]} "pop" nan).
  - vm_compute. reflexivity.
  - vm_compute. reflexivity.
  - discriminate.
Defined.

Lemma query_union_witness :
  matches (roma ∪ {[ "pop" := VNumber 3 ]}) (city_record "Roma" 1)
  = matches roma (city_record "Roma" 1)
    && matches {[ "pop" := VNumber 3 ]} (city_record "Roma" 1).
Proof.
  apply (query_union roma {[ "pop" := VNumber 3 ]}).
  apply map_disjoint_singleton_l. vm_compute. reflexivity.
Defined.

Lemma for_await_stops_at_malformed_witness :
  drive (cursor_over roma [roma3; milano5; "not-json"; roma1])
  = Some (filter (λ data, matches roma data) [city_record "Roma" 3; city_record "Milano" 5],
          Failed SyntaxError,
          moved (cursor_over roma [roma3; milano5; "not-json"; roma1]) (0 + 2 + 1) [roma1]).
Proof.
  apply (for_await_stops_at_malformed
           (cursor_over roma [roma3; milano5; "not-json"; roma1])
           [roma3; milano5] "not-json" [roma1]).
  - reflexivity.
  - repeat constructor; discriminate.
  - vm_compute. reflexivity.
Defined.

Lemma for_await_resumes_after_error_witness :
  ∃ stopped,
    drive (cursor_over roma [milano5; "not-json"; roma1])
    = Some (filter (λ data, matches roma data) [city_record "Milano" 5],
            Failed SyntaxError, stopped)
    ∧ drive stopped
      = Some (filter (λ data, matches roma data) [city_record "Roma" 1], Completed,
              moved (cursor_over roma [milano5; "not-json"; roma1])
                (0 + length [milano5; "not-json"; roma1]) []).
Proof.
  apply (for_await_resumes_after_error
           (cursor_over roma [milano5; "not-json"; roma1]) [milano5] "not-json" [roma1]).
  - reflexivity.
  - repeat constructor; discriminate.
  - vm_compute. reflexivity.
  - repeat constructor; discriminate.
Defined.

Lemma cursor_is_single_pass_witness :
  drive (moved (cursor_over roma storage_dat) 3 [])
  = Some ([], Completed, moved (cursor_over roma storage_dat) 3 []).
Proof.
  apply (cursor_is_single_pass (cursor_over roma storage_dat)
           [city_record "Roma" 3; city_record "Roma" 1]).
  vm_compute. reflexivity.
Defined.

Lemma narrower_query_filters_the_result_witness :
  ∃ result finished finished',
    drive (cursor_over roma storage_dat) = Some (result, Completed, finished)
    ∧ drive (cursor_over (<[ "pop" := VNumber 1 ]> roma) storage_dat)
      = Some (filter (λ data, matches (query (cursor_over (<[ "pop" := VNumber 1 ]> roma)
                                                storage_dat)) data) result,
              Completed, finished')
    ∧ filter (λ data, matches (query (cursor_over (<[ "pop" := VNumber 1 ]> roma)
                                        storage_dat)) data) result
      `sublist_of` result.
Proof.
  refine (narrower_query_filters_the_result
            (cursor_over roma storage_dat)
            (cursor_over (<[ "pop" := VNumber 1 ]> roma) storage_dat)
            [city_record "Roma" 3; city_record "Milano" 5; city_record "Roma" 1] _ _ _).
  - apply insert_subseteq. vm_compute. reflexivity.
  - reflexivity.
  - repeat constructor; discriminate.
Defined.

Lemma handles_have_their_own_streams_witness :
  ∃ cursor1 end1 streams3 cursor2 end2 streams4,
    0 ≠ 1
    ∧ FileStorage_select
        {| storage_dal := FsDataAccess_instance; fileName := "./storage.dat";
           fileStream := 0 |} roma [storage_dat; storage_dat] = Normal cursor1
    ∧ drive_in cursor1 [storage_dat; storage_dat]
      = Some (filter (λ data, matches roma data)
                [city_record "Roma" 3; city_record "Milano" 5; city_record "Roma" 1],
              Completed, end1, streams3)
    ∧ FileStorage_select
        {| storage_dal := FsDataAccess_instance; fileName := "./storage.dat";
           fileStream := 1 |} roma streams3 = Normal cursor2
    ∧ drive_in cursor2 streams3
      = Some (filter (λ data, matches roma data)
                [city_record "Roma" 3; city_record "Milano" 5; city_record "Roma" 1],
              Completed, end2, streams4).
Proof.
  apply (handles_have_their_own_streams "./storage.dat" "./storage.dat" []
           {| storage_dal := FsDataAccess_instance; fileName := "./storage.dat";
              fileStream := 0 |} [storage_dat]
           {| storage_dal := FsDataAccess_instance; fileName := "./storage.dat";
              fileStream := 1 |} [storage_dat; storage_dat] roma roma).
  - reflexivity.
  - reflexivity.
  - repeat constructor; discriminate.
  - repeat constructor; discriminate.
Defined.

Lemma usage_prints_the_roma_records_witness :
  usage []
  = Some (JObject <$> filter (λ members, has_string "city" "Roma" members)
            [ {[ "city" := JString "Roma"; "pop" := JNumber 3 ]};
              {[ "city" := JString "Milano"; "pop" := JNumber 5 ]};
              {[ "city" := JString "Roma"; "pop" := JNumber 1 ]} ],
          Completed, [] ++ [[]]).
Proof.
  apply (usage_prints_the_roma_records []).
  repeat constructor.
Defined.

(** The script on the file of the scenario prints the first and the
    third record. *)
Example usage_scenario :
  usage [] = Some ([city_record "Roma" 3; city_record "Roma" 1], Completed, [[]]).
Proof. vm_compute. reflexivity. Qed.
End MoreScenarioChecks.
